(** * Dragon curve: a shallow embedding of [dragon_curve.py]

    The geometry is modelled in exact reals ([R]); Python integers used as
    fold counts are [Z].  [nb_corners] and [nb_folds] are modelled over
    Python [int]s and binary64 floats, as Python and numpy evaluate them.  The numpy array [coord] of [curve] has shape (2, N):
    row 0 holds the x-coordinates and row 1 the y-coordinates (this is how
    [rot_mat.dot(coord)], [coord[0]], [coord[1]] and [draw_curve] read it).
    We model it as the pair of its two rows. *)

From Stdlib Require Import String.
From Stdlib Require Import ZArith Reals Lra Lia List.
Import ListNotations.
Open Scope R_scope.

(** ** Combinatorics *)











(** [is_even(num) = num % 2 == 0]; Python's [%] rounds toward minus
    infinity, as [Z.modulo] does. *)
Definition is_even (num : Z) : bool := Z.eqb (Z.modulo num 2) 0.

(** ** Rotation *)

(** A 2x2 matrix, by rows. *)
Record mat2 := { m00 : R; m01 : R; m10 : R; m11 : R }.

Definition rotation_matrix (angle : R) : mat2 :=
  {| m00 := cos angle; m01 := - sin angle;
     m10 := sin angle; m11 := cos angle |}.

(** A matrix applied to one point (column vector). *)
Definition mat_vec (m : mat2) (p : R * R) : R * R :=
  (m00 m * fst p + m01 m * snd p, m10 m * fst p + m11 m * snd p).

(** ** Curve builder *)

(** A numpy row of floats. *)
Definition row := list R.

(** The (2, N) array: (row 0 = x values, row 1 = y values). *)
Definition coord := (row * row)%type.

(** [rot_mat.dot(coord)] for a (2, N) array. *)
Definition mat_dot (m : mat2) (c : coord) : coord :=
  (map (fun p => m00 m * fst p + m01 m * snd p) (combine (fst c) (snd c)),
   map (fun p => m10 m * fst p + m11 m * snd p) (combine (fst c) (snd c))).

(** [v + np.repeat(s, v.shape[0])] *)
Definition add_scalar (v : row) (s : R) : row := map (fun x => x + s) v.

(** One iteration of the loop [for d in direction] of [curve], with
    [rot_mat = rotation_matrix(angle = d*angle)].  [hd 0] is the index [0]
    of a row ([coord] is never empty), [tl (rev r)] is [r[::-1][1:]] and
    [++] is [np.append]. *)
Definition fold_step (rot_mat : mat2) (c : coord) : coord :=
  let rot_coord := mat_dot rot_mat c in
  let new_orig := (hd 0 (fst rot_coord), hd 0 (snd rot_coord)) in
  let translation := (fst new_orig * -1, snd new_orig * -1) in
  let trans_x := add_scalar (fst c) (fst translation) in
  let trans_y := add_scalar (snd c) (snd translation) in
  let new_x := trans_x ++ add_scalar (tl (rev (fst rot_coord))) (fst translation) in
  let new_y := trans_y ++ add_scalar (tl (rev (snd rot_coord))) (snd translation) in
  (new_x, new_y).

(** Python's [range(n)]: empty when [n <= 0]. *)
Definition py_range (n : Z) : list Z := map Z.of_nat (seq 0 (Z.to_nat n)).

(** The direction list of [curve].  [None] stands for the exception raised
    by [np.ones(folds)] when [folds] is negative. *)
Definition direction (folds : Z) (alternate : bool) : option (list R) :=
  if alternate
  then Some (map (fun f => if is_even f then 1 else -1) (py_range folds))
  else if (folds <? 0)%Z then None
  else Some (repeat 1 (Z.to_nat folds)).

(** [coord = np.array([[0, 0], [1, 0]])] *)
Definition init_coord : coord := ([0; 0], [1; 0]).

(** The loop [for d in direction: ...] started from [c]. *)
Definition curve_loop (angle : R) (ds : list R) (c : coord) : coord :=
  fold_left (fun c d => fold_step (rotation_matrix (d * angle)) c) ds c.

(** [curve(folds, angle, alternate)]; [None] when it raises. *)
Definition curve (folds : Z) (angle : R) (alternate : bool) : option coord :=
  match direction folds alternate with
  | None => None
  | Some ds => Some (curve_loop angle ds init_coord)
  end.

(** The points of a (2, N) array, read column by column as (x, y). *)
Definition points (c : coord) : list (R * R) := combine (fst c) (snd c).

(** Euclidean distance between two points. *)
Definition dist (p q : R * R) : R :=
  sqrt ((fst p - fst q) ^ 2 + (snd p - snd q) ^ 2).

(** Consecutive points of a polyline are at distance 1. *)
Fixpoint unit_steps (l : list (R * R)) : Prop :=
  match l with
  | p :: ((q :: _) as t) => dist p q = 1 /\ unit_steps t
  | _ => True
  end.

(** *** The same loop, read point by point

    These are used only in proofs; [rows_fold_step] below shows that
    [fold_step] acts on the columns of [coord] as [step_pts] does. *)

(** The (2, N) array whose columns are the given points. *)
Definition rows (P : list (R * R)) : coord := (map fst P, map snd P).

(** A point plus a translation vector. *)
Definition addp (t p : R * R) : R * R := (fst p + fst t, snd p + snd t).

Definition step_pts (m : mat2) (P : list (R * R)) : list (R * R) :=
  let o := mat_vec m (hd (0, 0) P) in
  let t := (fst o * -1, snd o * -1) in
  map (addp t) P ++ map (fun p => addp t (mat_vec m p)) (tl (rev P)).

Definition pts_loop (angle : R) (ds : list R) (P : list (R * R)) :=
  fold_left (fun P d => step_pts (rotation_matrix (d * angle)) P) ds P.

(** The difference between the points [S i] and [i] of a polyline. *)
Definition edge (i : nat) (P : list (R * R)) : R * R :=
  (fst (nth (S i) P (0, 0)) - fst (nth i P (0, 0)),
   snd (nth (S i) P (0, 0)) - snd (nth i P (0, 0))).

(** ** Renderer: the drawing calls of [draw_curve]

    Only the calls that carry data are recorded: each [plt.plot] with its
    x row, y row and colour, then [ax.set_facecolor] and [plt.savefig].
    A colour is either a named colour or a colormap sampled at a value. *)

Inductive color :=
| Named (name : string)
| Cmap (cmap : string) (value : R).

Inductive event :=
| Plot (xs ys : row) (col : color)
| FaceColor (name : string)
| SaveFig (fname : string) (dpi : Z).

(** A Python slice bound [i] normalised against a length [n]. *)
Definition py_index_norm (i n : Z) : Z :=
  if (i <? 0)%Z then Z.max 0 (i + n) else Z.min i n.

(** Python's [l[a:b]] (step 1). *)
Definition py_slice {A : Type} (l : list A) (a b : Z) : list A :=
  let n := Z.of_nat (length l) in
  let a' := py_index_norm a n in
  let b' := py_index_norm b n in
  firstn (Z.to_nat (b' - a')) (skipn (Z.to_nat a') l).

(** [np.linspace(0, 1, num)]; [None] is the [ValueError] for [num < 0]. *)
Definition linspace01 (num : Z) : option (list R) :=
  if (num <? 0)%Z then None
  else if (num =? 1)%Z then Some [0]
  else Some (map (fun k => INR k / IZR (num - 1)) (seq 0 (Z.to_nat num))).

(** The [if/elif] chain on [color_gradient]: the colormap it samples, or
    [None] when no branch matches (then [colors] is unbound and the [for]
    loop raises). *)
Definition cmap_of (g : string) : option string :=
  if String.eqb g "viridis" then Some "viridis"%string
  else if String.eqb g "inferno" then Some "inferno"%string
  else if String.eqb g "cool" then Some "cool"%string
  else if String.eqb g "tab" then Some "tab20"%string
  else None.

(** The loop [for fold, col in enumerate(colors)], with
    [corners = int(np.ceil(nb_corners(fold)))]: [nb_corners(fold)] is the
    [int] [2**fold - 1] there, which [int(np.ceil(.))] returns unchanged
    as long as a float64 holds it exactly ([fold <= 53]). *)
Fixpoint grad_loop (cm : string) (fold : nat) (colors : list R) (prev : Z)
    (coords : coord) : list event :=
  match colors with
  | [] => []
  | col :: rest =>
      let corners := (2 ^ Z.of_nat fold - 1)%Z in
      Plot (py_slice (fst coords) prev corners) (py_slice (snd coords) prev corners)
        (Cmap cm col)
      :: grad_loop cm (S fold) rest (corners - 1) coords
  end.

(** [draw_curve(folds, angle, alternate, color_gradient, background_color,
    save)]: the recorded drawing calls, or [None] when it raises.
    [color_gradient = None] is the [option] value [None]. *)
Definition draw_curve (folds : Z) (angle : R) (alternate : bool)
    (color_gradient : option string) (background_color : string) (save : bool)
    : option (list event) :=
  match curve folds angle alternate with
  | None => None
  | Some coords =>
      let plots :=
        match color_gradient with
        | None => Some [Plot (fst coords) (snd coords) (Named "tab:orange")]
        | Some g =>
            match cmap_of g with
            | None => None
            | Some cm =>
                match linspace01 (folds + 1) with
                | None => None
                | Some colors => Some (grad_loop cm 0 colors 0 coords)
                end
            end
        end in
      match plots with
      | None => None
      | Some evs =>
          Some (evs ++ FaceColor background_color
                     :: (if save then [SaveFig "dragon_curve.jpg" 800] else []))
      end
  end.

(** The part of a row drawn by plot [k] in gradient mode, in closed form:
    nothing for [k < 2], otherwise the [2^(k-1) + 1] entries starting at
    index [2^(k-1) - 2]. *)
Definition grad_segment {A : Type} (k : nat) (l : list A) : list A :=
  if (k <? 2)%nat then []
  else firstn (Z.to_nat (2 ^ (Z.of_nat k - 1) + 1))
         (skipn (Z.to_nat (2 ^ (Z.of_nat k - 1) - 2)) l).

(** Mirror image in the y axis (x values negated). *)
Definition mirror (c : coord) : coord := (map Ropp (fst c), snd c).

Definition mirror_p (p : R * R) : R * R := (- fst p, snd p).

(** A real that is an integer. *)
Definition is_int (x : R) : Prop := exists z : Z, x = IZR z.

(** ** Small checks *)

Example curve_0_init : curve 0 (PI / 2) false = Some init_coord.
Proof. reflexivity. Qed.

Example direction_alt_4 : direction 4 true = Some [1; -1; 1; -1].
Proof. reflexivity. Qed.

Example direction_neg_alt : direction (-3) true = Some [].
Proof. reflexivity. Qed.

Example direction_neg : direction (-3) false = None.
Proof. reflexivity. Qed.

Example py_slice_neg_start : py_slice [0; 1; 2; 3; 4]%nat (-1) 1 = [].
Proof. reflexivity. Qed.

Example py_slice_mid : py_slice [0; 1; 2; 3; 4]%nat 2 7 = [2; 3; 4]%nat.
Proof. reflexivity. Qed.

Example cmap_of_tab : cmap_of "tab" = Some "tab20"%string.
Proof. reflexivity. Qed.

(** ** Helper lemmas *)

Lemma is_even_of_nat (k : nat) : is_even (Z.of_nat k) = Nat.even k.
Proof.
  unfold is_even. rewrite <- Zeven_mod.
  induction k as [| k IH]; [reflexivity |].
  rewrite Nat2Z.inj_succ, Z.even_succ, <- Z.negb_even, IH, Nat.even_succ,
    <- Nat.negb_even.
  reflexivity.
Qed.

Lemma nth_map_R (f : nat -> R) (n k : nat) :
  (k < n)%nat -> nth k (map f (seq 0 n)) 0 = f k.
Proof.
  intros Hk. rewrite nth_indep with (d' := f 0%nat) by (rewrite length_map, length_seq; lia).
  rewrite map_nth, seq_nth by lia. reflexivity.
Qed.

(** ** Claims *)

(** C3 (counterexample): with [alternate = True] a negative fold count is not
    rejected: [range(-1)] is empty and [curve] returns the initial array. *)
Lemma curve_negative_alternate_returns :
  curve (-1) (PI / 2) true = Some init_coord.
Proof. reflexivity. Qed.

(** C3 (amended): for a negative fold count, [curve] raises with
    [alternate = False] (from [np.ones] on a negative size) and returns the
    initial array unchanged with [alternate = True]. *)
Theorem curve_negative_folds (folds : Z) (angle : R) :
  (folds < 0)%Z ->
  curve folds angle false = None /\ curve folds angle true = Some init_coord.
Proof.
  intros Hneg. unfold curve, direction, py_range.
  replace (folds <? 0)%Z with true by (symmetry; apply Z.ltb_lt; exact Hneg).
  replace (Z.to_nat folds) with 0%nat by lia.
  split; reflexivity.
Qed.

Lemma curve_negative_folds_witness :
  (-2 < 0)%Z /\
  (curve (-2) 1 false = None /\ curve (-2) 1 true = Some init_coord).
Proof. split; [lia | apply (curve_negative_folds (-2) 1); lia]. Defined.

(** C4: for a non-negative fold count the direction sequence has one entry
    per fold; with [alternate] the entry at step [k] is [+1] for even [k] and
    [-1] for odd [k], otherwise every entry is [+1]; and [curve] applies, at
    each entry [d], the rotation by [d * angle]. *)
Theorem curve_direction_sequence (folds : Z) (alternate : bool) :
  (0 <= folds)%Z ->
  exists ds, direction folds alternate = Some ds /\
    length ds = Z.to_nat folds /\
    (forall k, (k < length ds)%nat ->
       nth k ds 0 = if alternate then (if Nat.even k then 1 else -1) else 1) /\
    (forall angle, curve folds angle alternate =
       Some (fold_left (fun c d => fold_step (rotation_matrix (d * angle)) c)
               ds init_coord)).
Proof.
  intros Hpos. unfold curve. destruct alternate; simpl.
  - eexists; split; [reflexivity |].
    unfold py_range. rewrite map_map.
    split; [rewrite length_map, length_seq; reflexivity |].
    split; [| reflexivity].
    intros k Hk. rewrite length_map, length_seq in Hk.
    rewrite nth_map_R by exact Hk. rewrite is_even_of_nat. reflexivity.
  - replace (folds <? 0)%Z with false by (symmetry; apply Z.ltb_ge; exact Hpos).
    eexists; split; [reflexivity |].
    split; [apply repeat_length |].
    split; [| reflexivity].
    intros k Hk. rewrite repeat_length in Hk. apply nth_repeat_lt. exact Hk.
Qed.

Lemma curve_direction_sequence_witness :
  (0 <= 3)%Z /\
  exists ds, direction 3 true = Some ds /\
    length ds = Z.to_nat 3 /\
    (forall k, (k < length ds)%nat ->
       nth k ds 0 = if true then (if Nat.even k then 1 else -1) else 1) /\
    (forall angle, curve 3 angle true =
       Some (fold_left (fun c d => fold_step (rotation_matrix (d * angle)) c)
               ds init_coord)).
Proof. split; [lia | apply (curve_direction_sequence 3 true); lia]. Defined.

(** C5 (counterexample): read with row 0 as x and row 1 as y, as [curve]
    does, [curve(0)] is not the polyline (0,0), (1,0). *)
Lemma curve_0_not_points_00_10 :
  ~ (exists c, curve 0 (PI / 2) false = Some c /\ points c = [(0, 0); (1, 0)]).
Proof.
  intros [c [Hc Hp]]. injection Hc as <-.
  cbn in Hp. injection Hp as H1 H2. lra.
Qed.

(** C5 (amended): [curve(0)] returns the initial array [[0,0],[1,0]]
    unchanged, for every angle and flag; as rows of x and y values its
    points are (0,1) followed by (0,0). *)
Theorem curve_zero_folds (angle : R) (alternate : bool) :
  curve 0 angle alternate = Some ([0; 0], [1; 0]) /\
  points ([0; 0], [1; 0]) = [(0, 1); (0, 0)].
Proof. destruct alternate; split; reflexivity. Qed.







(** C8: [rotation_matrix] is [[cos, -sin], [sin, cos]]; at 0 it is the
    identity and at [PI/2] it maps (1,0) to (0,1). *)
Theorem rotation_matrix_spec :
  (forall angle, m00 (rotation_matrix angle) = cos angle /\
                 m01 (rotation_matrix angle) = - sin angle /\
                 m10 (rotation_matrix angle) = sin angle /\
                 m11 (rotation_matrix angle) = cos angle) /\
  rotation_matrix 0 = {| m00 := 1; m01 := 0; m10 := 0; m11 := 1 |} /\
  mat_vec (rotation_matrix (PI / 2)) (1, 0) = (0, 1).
Proof.
  split; [| split].
  - intros angle. repeat split.
  - unfold rotation_matrix. rewrite cos_0, sin_0, Ropp_0. reflexivity.
  - unfold mat_vec, rotation_matrix. simpl. rewrite cos_PI2, sin_PI2.
    f_equal; ring.
Qed.

(** ** The loop on points *)

Lemma combine_fst_snd (P : list (R * R)) : combine (map fst P) (map snd P) = P.
Proof. induction P as [| [x y] P IH]; simpl; [reflexivity | rewrite IH; reflexivity]. Qed.

Lemma hd_map_cons {A B : Type} (f : A -> B) (d : B) (a : A) (l : list A) :
  hd d (map f (a :: l)) = f a.
Proof. reflexivity. Qed.

Lemma points_rows (P : list (R * R)) : points (rows P) = P.
Proof. apply combine_fst_snd. Qed.

Lemma rows_fold_step (m : mat2) (P : list (R * R)) :
  fold_step m (rows P) = rows (step_pts m P).
Proof.
  destruct P as [| p P']; [reflexivity |].
  unfold fold_step, mat_dot, rows, step_pts. cbn [fst snd].
  rewrite combine_fst_snd.
  unfold add_scalar. rewrite !map_app, !map_map, <- !map_rev, !tl_map, !map_map.
  rewrite !hd_map_cons. cbn [hd]. f_equal.
Qed.

Lemma rows_curve_loop (angle : R) (ds : list R) (P : list (R * R)) :
  curve_loop angle ds (rows P) = rows (pts_loop angle ds P).
Proof.
  revert P. induction ds as [| d ds IH]; intros P; [reflexivity |].
  unfold curve_loop, pts_loop in *. simpl. rewrite rows_fold_step. apply IH.
Qed.

Lemma init_coord_rows : init_coord = rows [(0, 1); (0, 0)].
Proof. reflexivity. Qed.

Lemma length_step_pts (m : mat2) (P : list (R * R)) :
  length (step_pts m P) = (length P + (length P - 1))%nat.
Proof.
  unfold step_pts. rewrite length_app, !length_map, length_tl, length_rev.
  reflexivity.
Qed.

Lemma length_pts_loop (angle : R) (ds : list R) (P : list (R * R)) (k : nat) :
  length P = S k -> length (pts_loop angle ds P) = S (2 ^ length ds * k).
Proof.
  revert P k. induction ds as [| d ds IH]; intros P k Hk.
  - simpl. lia.
  - change (pts_loop angle (d :: ds) P)
      with (pts_loop angle ds (step_pts (rotation_matrix (d * angle)) P)).
    rewrite (IH _ (2 * k)%nat); [simpl length; rewrite Nat.pow_succ_r'; f_equal; lia |].
    rewrite length_step_pts, Hk. lia.
Qed.

Lemma direction_length (folds : Z) (alternate : bool) :
  (0 <= folds)%Z ->
  exists ds, direction folds alternate = Some ds /\ length ds = Z.to_nat folds.
Proof.
  intros Hpos. unfold direction. destruct alternate.
  - eexists; split; [reflexivity |]. unfold py_range.
    rewrite !length_map, length_seq. reflexivity.
  - replace (folds <? 0)%Z with false by (symmetry; apply Z.ltb_ge; exact Hpos).
    eexists; split; [reflexivity | apply repeat_length].
Qed.

(** ** Distances *)

Lemma dist_sym (p q : R * R) : dist p q = dist q p.
Proof. unfold dist. f_equal. ring. Qed.

Lemma dist_addp (t p q : R * R) : dist (addp t p) (addp t q) = dist p q.
Proof. unfold dist, addp. simpl. f_equal. ring. Qed.

Lemma dist_rot (a : R) (p q : R * R) :
  dist (mat_vec (rotation_matrix a) p) (mat_vec (rotation_matrix a) q) = dist p q.
Proof.
  destruct p as [px py], q as [qx qy].
  unfold dist, mat_vec, rotation_matrix. simpl. f_equal.
  pose proof (sin2_cos2 a) as H. unfold Rsqr in H.
  transitivity ((sin a * sin a + cos a * cos a) * ((px - qx) ^ 2 + (py - qy) ^ 2));
    [ring | rewrite H; ring].
Qed.

Lemma mat_vec_origin (m : mat2) : mat_vec m (0, 0) = (0, 0).
Proof. unfold mat_vec. simpl. f_equal; ring. Qed.

Lemma unit_steps_cons2 (p q : R * R) (l : list (R * R)) :
  unit_steps (p :: q :: l) <-> dist p q = 1 /\ unit_steps (q :: l).
Proof. reflexivity. Qed.

Lemma unit_steps_split (A B : list (R * R)) (a b : R * R) :
  unit_steps (A ++ a :: b :: B) <->
  unit_steps (A ++ [a]) /\ dist a b = 1 /\ unit_steps (b :: B).
Proof.
  induction A as [| x A IH].
  - simpl app. rewrite unit_steps_cons2. simpl unit_steps at 2. tauto.
  - destruct A as [| y A].
    + simpl app in *. rewrite !unit_steps_cons2. change (unit_steps [a]) with True. tauto.
    + change ((x :: y :: A) ++ a :: b :: B) with (x :: y :: (A ++ a :: b :: B)).
      change ((x :: y :: A) ++ [a]) with (x :: y :: (A ++ [a])).
      rewrite !unit_steps_cons2. change (y :: A ++ a :: b :: B) with ((y :: A) ++ a :: b :: B).
      change (y :: A ++ [a]) with ((y :: A) ++ [a]).
      rewrite IH. tauto.
Qed.

Lemma unit_steps_map (f : R * R -> R * R) (L : list (R * R)) :
  (forall p q, dist (f p) (f q) = dist p q) ->
  unit_steps (map f L) <-> unit_steps L.
Proof.
  intros Hf. induction L as [| p L IH]; [simpl; tauto |].
  destruct L as [| q L]; [simpl; tauto |].
  change (map f (p :: q :: L)) with (f p :: map f (q :: L)).
  change (map f (q :: L)) with (f q :: map f L) at 1.
  rewrite !unit_steps_cons2, Hf. change (f q :: map f L) with (map f (q :: L)).
  rewrite IH. tauto.
Qed.

Lemma unit_steps_rev (L : list (R * R)) : unit_steps (rev L) <-> unit_steps L.
Proof.
  induction L as [| x L IH]; [simpl; tauto |].
  destruct L as [| y L]; [simpl; tauto |].
  change (rev (x :: y :: L)) with ((rev L ++ [y]) ++ [x]).
  rewrite <- app_assoc. simpl app at 2.
  rewrite unit_steps_split, unit_steps_cons2.
  change (rev L ++ [y]) with (rev (y :: L)). rewrite IH, dist_sym.
  simpl unit_steps at 2. tauto.
Qed.

(** ** The invariant of the loop *)

Lemma step_pts_last (m : mat2) (P : list (R * R)) :
  (2 <= length P)%nat -> last (step_pts m P) (0, 0) = (0, 0).
Proof.
  intros Hlen. destruct P as [| p0 P']; [simpl in Hlen; lia |].
  unfold step_pts. cbn [hd].
  change (rev (p0 :: P')) with (rev P' ++ [p0]).
  destruct (rev P') as [| r R'] eqn:Hr.
  - apply (f_equal (@length (R * R))) in Hr. rewrite length_rev in Hr.
    simpl in Hlen, Hr. lia.
  - cbn [app tl]. rewrite map_app, app_assoc. cbn [map]. rewrite last_last.
    unfold addp, mat_vec. simpl. f_equal; ring.
Qed.

Lemma split_last2 (P : list (R * R)) :
  (2 <= length P)%nat -> exists Q y z, P = Q ++ [y; z].
Proof.
  intros Hlen. rewrite <- (rev_involutive P).
  destruct (rev P) as [| z [| y R']] eqn:Hr;
    try (apply (f_equal (@length (R * R))) in Hr; rewrite length_rev in Hr;
         simpl in Hr; lia).
  exists (rev R'), y, z. simpl. rewrite <- app_assoc. reflexivity.
Qed.

Lemma step_pts_unit_steps (a : R) (Q : list (R * R)) (y : R * R) :
  unit_steps (Q ++ [y; (0, 0)]) ->
  unit_steps (step_pts (rotation_matrix a) (Q ++ [y; (0, 0)])).
Proof.
  intros HU. unfold step_pts.
  set (t := (_, _)). set (m := rotation_matrix a).
  rewrite rev_app_distr. cbn [rev app tl].
  replace (Q ++ [y; (0, 0)]) with ((Q ++ [y]) ++ [(0, 0)]) in *
    by (rewrite <- app_assoc; reflexivity).
  rewrite map_app. cbn [map]. rewrite <- app_assoc. cbn [app].
  rewrite <- app_assoc in HU. cbn [app] in HU.
  apply unit_steps_split in HU as [HQ [Hy _]].
  apply unit_steps_split. repeat split.
  - change [addp t (0, 0)] with (map (addp t) [(0, 0)]). rewrite <- map_app.
    apply unit_steps_map; [apply dist_addp |].
    rewrite <- app_assoc. apply unit_steps_split. repeat split; [exact HQ | exact Hy].
  - rewrite dist_addp, <- (mat_vec_origin m). unfold m. rewrite dist_rot, dist_sym.
    exact Hy.
  - replace (addp t (mat_vec m y) :: map (fun p => addp t (mat_vec m p)) (rev Q))
      with (map (fun p => addp t (mat_vec m p)) (rev (Q ++ [y])))
      by (rewrite rev_unit; reflexivity).
    apply unit_steps_map; [intros p q; rewrite dist_addp; apply dist_rot |].
    apply unit_steps_rev. exact HQ.
Qed.

Lemma step_pts_inv (a : R) (P : list (R * R)) :
  (2 <= length P)%nat -> last P (0, 0) = (0, 0) -> unit_steps P ->
  (2 <= length (step_pts (rotation_matrix a) P))%nat /\
  last (step_pts (rotation_matrix a) P) (0, 0) = (0, 0) /\
  unit_steps (step_pts (rotation_matrix a) P).
Proof.
  intros Hlen Hlast HU. split; [rewrite length_step_pts; lia |].
  split; [apply step_pts_last; exact Hlen |].
  destruct (split_last2 P Hlen) as [Q [y [z HP]]]. subst P.
  replace (Q ++ [y; z]) with ((Q ++ [y]) ++ [z]) in Hlast
    by (rewrite <- app_assoc; reflexivity).
  rewrite last_last in Hlast. subst z.
  apply step_pts_unit_steps. exact HU.
Qed.

Lemma pts_loop_inv (angle : R) (ds : list R) (P : list (R * R)) :
  (2 <= length P)%nat -> last P (0, 0) = (0, 0) -> unit_steps P ->
  (2 <= length (pts_loop angle ds P))%nat /\
  last (pts_loop angle ds P) (0, 0) = (0, 0) /\
  unit_steps (pts_loop angle ds P).
Proof.
  revert P. induction ds as [| d ds IH]; intros P Hlen Hlast HU; [auto |].
  change (pts_loop angle (d :: ds) P)
    with (pts_loop angle ds (step_pts (rotation_matrix (d * angle)) P)).
  destruct (step_pts_inv (d * angle) P Hlen Hlast HU) as [H1 [H2 H3]].
  apply IH; assumption.
Qed.

Lemma init_pts_inv :
  Nat.le 2 (length [(0, 1); (0, 0)]) /\
  last [(0, 1); (0, 0)] (0, 0) = (0, 0) /\
  unit_steps [(0, 1); (0, 0)].
Proof.
  split; [simpl; lia |]. split; [reflexivity |].
  simpl. split; [| exact I]. unfold dist. cbn [fst snd].
  replace ((0 - 0) ^ 2 + (1 - 0) ^ 2) with 1 by ring. apply sqrt_1.
Qed.

(** Every state the loop of [curve] reaches is the array of a polyline
    with at least two points, ending at the origin, with unit steps. *)
Lemma curve_loop_inv (angle : R) (ds : list R) :
  exists P, curve_loop angle ds init_coord = rows P /\
    (2 <= length P)%nat /\ last P (0, 0) = (0, 0) /\ unit_steps P.
Proof.
  exists (pts_loop angle ds [(0, 1); (0, 0)]).
  rewrite init_coord_rows, rows_curve_loop. split; [reflexivity |].
  destruct init_pts_inv as [H1 [H2 H3]]. apply pts_loop_inv; assumption.
Qed.

Lemma rows_last_origin (P : list (R * R)) :
  P <> [] -> last P (0, 0) = (0, 0) ->
  last (fst (rows P)) 0 = 0 /\ last (snd (rows P)) 0 = 0.
Proof.
  intros Hne Hlast. rewrite (app_removelast_last (l := P) (0, 0) Hne), Hlast.
  unfold rows. cbn [fst snd]. rewrite !map_app. cbn [map]. rewrite !last_last.
  split; reflexivity.
Qed.

(** C1: for every non-negative fold count, every angle and both values of
    the flag, [curve] returns an array whose two rows (x and y values) both
    have [2^folds + 1] entries, i.e. a polyline of [2^folds + 1] points. *)
Theorem curve_length (folds : Z) (angle : R) (alternate : bool) :
  (0 <= folds)%Z ->
  exists c, curve folds angle alternate = Some c /\
    Z.of_nat (length (fst c)) = (2 ^ folds + 1)%Z /\
    Z.of_nat (length (snd c)) = (2 ^ folds + 1)%Z.
Proof.
  intros Hpos. destruct (direction_length folds alternate Hpos) as [ds [Hd Hl]].
  unfold curve. rewrite Hd. eexists; split; [reflexivity |].
  rewrite init_coord_rows, rows_curve_loop. unfold rows. cbn [fst snd].
  rewrite !length_map, (length_pts_loop angle ds _ 1) by reflexivity.
  rewrite Hl, Nat.mul_1_r, Nat2Z.inj_succ, Nat2Z.inj_pow, Z2Nat.id by exact Hpos.
  split; reflexivity.
Qed.

Lemma curve_length_witness :
  (0 <= 3)%Z /\
  exists c, curve 3 (PI / 2) true = Some c /\
    Z.of_nat (length (fst c)) = (2 ^ 3 + 1)%Z /\
    Z.of_nat (length (snd c)) = (2 ^ 3 + 1)%Z.
Proof. split; [lia | apply (curve_length 3 (PI / 2) true); lia]. Defined.

(** C2: in every iteration of the loop of [curve] (from any state the loop
    reaches, for any direction [d]), the point dropped from the reversed
    rotated copy, translated, equals the last point of the translated head,
    and each row of the new array has [2 * (previous length) - 1] entries. *)
Theorem fold_step_junction (angle : R) (ds : list R) (d : R) :
  let c := curve_loop angle ds init_coord in
  let rot_coord := mat_dot (rotation_matrix (d * angle)) c in
  let translation := (hd 0 (fst rot_coord) * -1, hd 0 (snd rot_coord) * -1) in
  (hd 0 (rev (fst rot_coord)) + fst translation,
   hd 0 (rev (snd rot_coord)) + snd translation) =
  (last (add_scalar (fst c) (fst translation)) 0,
   last (add_scalar (snd c) (snd translation)) 0) /\
  length (fst (fold_step (rotation_matrix (d * angle)) c)) =
    (2 * length (fst c) - 1)%nat /\
  length (snd (fold_step (rotation_matrix (d * angle)) c)) =
    (2 * length (snd c) - 1)%nat.
Proof.
  cbv zeta. destruct (curve_loop_inv angle ds) as [P [HP [Hlen [Hlast _]]]].
  rewrite HP, rows_fold_step. set (m := rotation_matrix (d * angle)).
  split; [| unfold rows; cbn [fst snd]; rewrite !length_map, length_step_pts;
            split; lia].
  assert (Hne : P <> []) by (intros ->; simpl in Hlen; lia).
  rewrite (app_removelast_last (l := P) (0, 0) Hne), Hlast.
  generalize (removelast P) as Q. intros Q.
  unfold rows, mat_dot, add_scalar. cbn [fst snd]. rewrite combine_fst_snd.
  rewrite <- !map_rev, !rev_unit, !hd_map_cons, !map_app. cbn [map].
  rewrite !last_last. cbn [fst snd]. f_equal; ring.
Qed.

(** C9: read with row 0 as x and row 1 as y, the last point of the initial
    array and of the array after every iteration of the loop (for every
    angle and every direction sequence, hence after every call of [curve])
    is the origin. *)
Theorem curve_last_point_origin :
  (last (fst init_coord) 0 = 0 /\ last (snd init_coord) 0 = 0) /\
  (forall angle ds, last (fst (curve_loop angle ds init_coord)) 0 = 0 /\
                    last (snd (curve_loop angle ds init_coord)) 0 = 0) /\
  (forall folds angle alternate,
     match curve folds angle alternate with
     | Some c => last (fst c) 0 = 0 /\ last (snd c) 0 = 0
     | None => True
     end).
Proof.
  assert (Hloop : forall angle ds,
    last (fst (curve_loop angle ds init_coord)) 0 = 0 /\
    last (snd (curve_loop angle ds init_coord)) 0 = 0).
  { intros angle ds. destruct (curve_loop_inv angle ds) as [P [HP [Hlen [Hlast _]]]].
    rewrite HP. apply rows_last_origin; [intros ->; simpl in Hlen; lia | exact Hlast]. }
  split; [split; reflexivity |]. split; [exact Hloop |].
  intros folds angle alternate. unfold curve.
  destruct (direction folds alternate); [apply Hloop | exact I].
Qed.

(** C10: in exact arithmetic, any two consecutive points of the polyline
    returned by [curve] are at Euclidean distance 1, for every fold count,
    angle and flag. *)
Theorem curve_unit_steps (folds : Z) (angle : R) (alternate : bool) :
  match curve folds angle alternate with
  | Some c => unit_steps (points c)
  | None => True
  end.
Proof.
  unfold curve. destruct (direction folds alternate) as [ds |]; [| exact I].
  destruct (curve_loop_inv angle ds) as [P [HP [_ [_ HU]]]].
  rewrite HP, points_rows. exact HU.
Qed.

(** ** Alternation at a right angle *)

Lemma edge_step_pts (m : mat2) (P : list (R * R)) (i : nat) :
  (S i < length P)%nat -> edge i (step_pts m P) = edge i P.
Proof.
  intros Hi. unfold step_pts, edge.
  set (t := (fst (mat_vec m (hd (0, 0) P)) * -1, snd (mat_vec m (hd (0, 0) P)) * -1)).
  rewrite !app_nth1 by (rewrite length_map; lia).
  rewrite (nth_indep (map (addp t) P) (0, 0) (addp t (0, 0)))
    by (rewrite length_map; lia).
  rewrite (nth_indep (map (addp t) P) (0, 0) (addp t (0, 0)) (n := i))
    by (rewrite length_map; lia).
  rewrite !map_nth. unfold addp. cbn [fst snd]. f_equal; ring.
Qed.

Lemma edge_pts_loop (angle : R) (ds : list R) (P : list (R * R)) (i : nat) :
  (S i < length P)%nat -> edge i (pts_loop angle ds P) = edge i P.
Proof.
  revert P. induction ds as [| d ds IH]; intros P Hi; [reflexivity |].
  change (pts_loop angle (d :: ds) P)
    with (pts_loop angle ds (step_pts (rotation_matrix (d * angle)) P)).
  rewrite IH by (rewrite length_step_pts; lia).
  apply edge_step_pts. exact Hi.
Qed.

Lemma rotation_matrix_pos_right :
  rotation_matrix (1 * (PI / 2)) = {| m00 := 0; m01 := -1; m10 := 1; m11 := 0 |}.
Proof.
  unfold rotation_matrix. rewrite Rmult_1_l, cos_PI2, sin_PI2. reflexivity.
Qed.

Lemma rotation_matrix_neg_right :
  rotation_matrix (-1 * (PI / 2)) = {| m00 := 0; m01 := 1; m10 := -1; m11 := 0 |}.
Proof.
  unfold rotation_matrix. replace (-1 * (PI / 2)) with (- (PI / 2)) by ring.
  rewrite cos_neg, sin_neg, cos_PI2, sin_PI2, Ropp_involutive. reflexivity.
Qed.

Lemma direction_two_or_more (f : Z) :
  (2 <= f)%Z ->
  (exists rest, direction f true = Some (1 :: -1 :: rest)) /\
  (exists rest, direction f false = Some (1 :: 1 :: rest)).
Proof.
  intros Hf. destruct (Z.to_nat f) as [| [| k]] eqn:Hk; [lia | lia |].
  unfold direction, py_range. rewrite Hk.
  replace (f <? 0)%Z with false by (symmetry; apply Z.ltb_ge; lia).
  split; eexists; reflexivity.
Qed.

(** The polyline after the first two folds at a right angle. *)
Lemma two_folds_right (d : R) :
  d = 1 \/ d = -1 ->
  let P := step_pts (rotation_matrix (d * (PI / 2)))
             (step_pts (rotation_matrix (1 * (PI / 2))) [(0, 1); (0, 0)]) in
  length P = 5%nat /\ edge 2 P = (0, d).
Proof.
  intros [-> | ->]; cbv zeta;
    rewrite ?rotation_matrix_pos_right, ?rotation_matrix_neg_right;
    (split; [reflexivity |]);
    unfold step_pts, edge, addp, mat_vec; cbn; apply pair_equal_spec; split; lra.
Qed.

Lemma curve_right_after_two (f : Z) (alternate : bool) :
  (2 <= f)%Z ->
  exists L, curve f (PI / 2) alternate = Some (rows L) /\
    (5 <= length L)%nat /\
    edge 2 L = (0, if alternate then -1 else 1).
Proof.
  intros Hf. destruct (direction_two_or_more f Hf) as [[rt Ht] [rf Hfl]].
  unfold curve. destruct alternate; [rewrite Ht | rewrite Hfl].
  - destruct (two_folds_right (-1) (or_intror eq_refl)) as [Hl He].
    eexists; split.
    + rewrite init_coord_rows, rows_curve_loop. reflexivity.
    + change (pts_loop (PI / 2) (1 :: -1 :: rt) [(0, 1); (0, 0)])
        with (pts_loop (PI / 2) rt
                (step_pts (rotation_matrix (-1 * (PI / 2)))
                   (step_pts (rotation_matrix (1 * (PI / 2))) [(0, 1); (0, 0)]))).
      split.
      * rewrite (length_pts_loop _ _ _ 4 Hl).
        pose proof (Nat.pow_nonzero 2 (length rt) ltac:(lia)). lia.
      * rewrite edge_pts_loop by lia. exact He.
  - destruct (two_folds_right 1 (or_introl eq_refl)) as [Hl He].
    eexists; split.
    + rewrite init_coord_rows, rows_curve_loop. reflexivity.
    + change (pts_loop (PI / 2) (1 :: 1 :: rf) [(0, 1); (0, 0)])
        with (pts_loop (PI / 2) rf
                (step_pts (rotation_matrix (1 * (PI / 2)))
                   (step_pts (rotation_matrix (1 * (PI / 2))) [(0, 1); (0, 0)]))).
      split.
      * rewrite (length_pts_loop _ _ _ 4 Hl).
        pose proof (Nat.pow_nonzero 2 (length rf) ltac:(lia)). lia.
      * rewrite edge_pts_loop by lia. exact He.
Qed.

(** C6: for every fold count [f >= 2] and the angle [PI/2], the polylines
    of [curve f (PI/2) True] and [curve f (PI/2) False] differ: some point
    index holds points at distance at least 1 in the two. *)
Theorem curve_alternation_differs (f : Z) :
  (2 <= f)%Z ->
  exists ct cf, curve f (PI / 2) true = Some ct /\
    curve f (PI / 2) false = Some cf /\
    exists i, (i < length (points ct))%nat /\ (i < length (points cf))%nat /\
      dist (nth i (points ct) (0, 0)) (nth i (points cf) (0, 0)) >= 1.
Proof.
  intros Hf.
  destruct (curve_right_after_two f true Hf) as [Lt [Ht [Hlt Het]]].
  destruct (curve_right_after_two f false Hf) as [Lf [Hfl [Hlf Hef]]].
  exists (rows Lt), (rows Lf). split; [exact Ht |]. split; [exact Hfl |].
  rewrite !points_rows. unfold edge in Het, Hef.
  injection Het as Htx Hty. injection Hef as Hfx Hfy.
  destruct (nth 2 Lt (0, 0)) as [ax ay] eqn:E1, (nth 3 Lt (0, 0)) as [bx by_] eqn:E2,
    (nth 2 Lf (0, 0)) as [ax' ay'] eqn:E3, (nth 3 Lf (0, 0)) as [bx' by'] eqn:E4.
  cbn [fst snd] in *.
  destruct (Rle_or_lt 1 ((ax - ax') ^ 2 + (ay - ay') ^ 2)) as [Hge | Hlt1].
  - exists 2%nat. split; [lia |]. split; [lia |].
    unfold dist. rewrite E1, E3. cbn [fst snd].
    rewrite <- sqrt_1. apply Rle_ge, sqrt_le_1_alt. exact Hge.
  - exists 3%nat. split; [lia |]. split; [lia |].
    unfold dist. rewrite E2, E4. cbn [fst snd].
    rewrite <- sqrt_1. apply Rle_ge, sqrt_le_1_alt.
    pose proof (pow2_ge_0 (ax - ax')) as Hx.
    assert (Hu : (ay - ay') ^ 2 < 1) by lra.
    replace bx with ax by lra. replace bx' with ax' by lra.
    replace by_ with (ay - 1) by lra. replace by' with (ay' + 1) by lra.
    set (u := ay - ay') in *.
    replace (ay - 1 - (ay' + 1)) with (u - 2) by (unfold u; ring).
    assert (Hu1 : u < 1) by nra.
    pose proof (pow2_ge_0 (ax - ax')). nra.
Qed.

Lemma curve_alternation_differs_witness :
  (2 <= 4)%Z /\
  exists ct cf, curve 4 (PI / 2) true = Some ct /\
    curve 4 (PI / 2) false = Some cf /\
    exists i, (i < length (points ct))%nat /\ (i < length (points cf))%nat /\
      dist (nth i (points ct) (0, 0)) (nth i (points cf) (0, 0)) >= 1.
Proof. split; [lia | apply (curve_alternation_differs 4); lia]. Defined.

(** * Further properties of the code *)

(** ** Combinatorics *)

(** [is_even] is evenness on every integer, negative ones included
    (Python's [%] is non-negative for a positive divisor). *)
Theorem is_even_spec (n : Z) : is_even n = Z.even n.
Proof. unfold is_even. rewrite Zeven_mod. reflexivity. Qed.









(** ** More on the curve *)

Lemma direction_signs (folds : Z) (alternate : bool) (ds : list R) :
  direction folds alternate = Some ds -> Forall (fun d => d = 1 \/ d = -1) ds.
Proof.
  unfold direction. destruct alternate.
  - intros H. injection H as <-. apply Forall_map, Forall_forall.
    intros f _. destruct (is_even f); auto.
  - destruct (folds <? 0)%Z; [discriminate |]. intros H. injection H as <-.
    apply Forall_forall. intros d Hd. apply repeat_spec in Hd. auto.
Qed.


Lemma Forall_tl {A : Type} (Q : A -> Prop) (l : list A) :
  Forall Q l -> Forall Q (tl l).
Proof. intros H. destruct H; [constructor | exact H0]. Qed.

Lemma mat_vec_identity (b : R) (p : R * R) :
  cos b = 1 -> sin b = 0 -> mat_vec (rotation_matrix b) p = p.
Proof.
  intros Hc Hs. destruct p as [x y]. unfold mat_vec, rotation_matrix. simpl.
  rewrite Hc, Hs. f_equal; ring.
Qed.

Lemma step_pts_degenerate (b : R) (P : list (R * R)) :
  cos b = 1 -> sin b = 0 -> Forall (fun p => fst p = 0) P ->
  Forall (fun p => fst p = 0) (step_pts (rotation_matrix b) P).
Proof.
  intros Hc Hs HP. unfold step_pts. rewrite !mat_vec_identity by assumption.
  assert (H0 : fst (hd (0, 0) P) = 0) by (destruct HP; [reflexivity | exact H]).
  apply Forall_app. split.
  - apply Forall_map. apply Forall_forall. intros p Hp.
    rewrite Forall_forall in HP. unfold addp. cbn [fst]. rewrite (HP p Hp), H0. ring.
  - apply Forall_map. apply Forall_forall. intros p Hp.
    pose proof (Forall_tl _ _ (Forall_rev HP)) as HT. rewrite Forall_forall in HT.
    pose proof (HT p Hp) as Hp0. cbn beta in Hp0.
    rewrite mat_vec_identity by assumption.
    unfold addp. cbn [fst]. rewrite Hp0, H0. ring.
Qed.

(** When [cos angle = 1] and [sin angle = 0] (angle 0 or a multiple of
    2*PI), every x value of the array [curve] returns is 0: the curve is
    the straight segment of the y axis it starts on. *)
Theorem curve_degenerate_angle (folds : Z) (angle : R) (alternate : bool) :
  cos angle = 1 -> sin angle = 0 ->
  match curve folds angle alternate with
  | Some c => Forall (fun x => x = 0) (fst c)
  | None => True
  end.
Proof.
  intros Hc Hs. unfold curve. destruct (direction folds alternate) as [ds |] eqn:Hd;
    [| exact I].
  apply direction_signs in Hd.
  rewrite init_coord_rows, rows_curve_loop. unfold rows. cbn [fst].
  apply Forall_map.
  assert (H0 : Forall (fun p : R * R => fst p = 0) [(0, 1); (0, 0)]) by
    (repeat constructor).
  revert H0. generalize [(0, 1); (0, 0)] as P.
  induction ds as [| d ds IH]; intros P HP; [exact HP |].
  inversion Hd as [| ? ? Hd1 Hds]; subst.
  change (pts_loop angle (d :: ds) P)
    with (pts_loop angle ds (step_pts (rotation_matrix (d * angle)) P)).
  apply IH; [exact Hds |].
  apply step_pts_degenerate; [| | exact HP];
    destruct Hd1 as [-> | ->];
    rewrite ?Rmult_1_l; replace (-1 * angle) with (- angle) by ring;
    rewrite ?cos_neg, ?sin_neg, ?Hc, ?Hs; lra.
Qed.

Lemma curve_degenerate_angle_witness :
  (cos 0 = 1 /\ sin 0 = 0) /\
  match curve 3 0 true with
  | Some c => Forall (fun x => x = 0) (fst c)
  | None => True
  end.
Proof.
  split; [split; [apply cos_0 | apply sin_0] |].
  apply (curve_degenerate_angle 3 0 true); [apply cos_0 | apply sin_0].
Defined.

Lemma step_pts_mirror (b : R) (P : list (R * R)) :
  step_pts (rotation_matrix (- b)) (map mirror_p P) =
  map mirror_p (step_pts (rotation_matrix b) P).
Proof.
  destruct P as [| p P']; [reflexivity |].
  unfold step_pts. rewrite hd_map_cons. cbn [hd].
  rewrite map_app, !map_map, <- map_rev, tl_map, !map_map.
  f_equal; apply map_ext; intros q;
    unfold addp, mat_vec, mirror_p, rotation_matrix; cbn [fst snd m00 m01 m10 m11];
    rewrite cos_neg, sin_neg; f_equal; ring.
Qed.

Lemma pts_loop_mirror (angle : R) (ds : list R) (P : list (R * R)) :
  pts_loop (- angle) ds (map mirror_p P) = map mirror_p (pts_loop angle ds P).
Proof.
  revert P. induction ds as [| d ds IH]; intros P; [reflexivity |].
  change (pts_loop (- angle) (d :: ds) (map mirror_p P))
    with (pts_loop (- angle) ds (step_pts (rotation_matrix (d * - angle)) (map mirror_p P))).
  replace (d * - angle) with (- (d * angle)) by ring.
  rewrite step_pts_mirror. apply IH.
Qed.

(** Negating the angle mirrors the curve in the y axis: [curve] with
    [-angle] returns the array of [curve] with [angle], x values negated,
    and fails exactly when it fails. *)
Theorem curve_mirror (folds : Z) (angle : R) (alternate : bool) :
  curve folds (- angle) alternate = option_map mirror (curve folds angle alternate).
Proof.
  unfold curve. destruct (direction folds alternate) as [ds |]; [| reflexivity].
  cbn [option_map]. f_equal.
  rewrite init_coord_rows, !rows_curve_loop.
  assert (Hm : map mirror_p [(0, 1); (0, 0)] = [(0, 1); (0, 0)])
    by (cbn [map]; unfold mirror_p; cbn [fst snd]; rewrite Ropp_0; reflexivity).
  rewrite <- Hm at 1. rewrite pts_loop_mirror. unfold mirror, rows. cbn [fst snd].
  rewrite !map_map. reflexivity.
Qed.

Lemma direction_succ (folds : Z) (alternate : bool) :
  (0 <= folds)%Z ->
  exists ds d, direction folds alternate = Some ds /\
    direction (folds + 1) alternate = Some (ds ++ [d]).
Proof.
  intros Hf. unfold direction.
  replace (Z.to_nat (folds + 1)) with (S (Z.to_nat folds)) by lia.
  destruct alternate.
  - unfold py_range.
    replace (Z.to_nat (folds + 1)) with (S (Z.to_nat folds)) by lia.
    rewrite seq_S, !map_app. do 2 eexists. split; reflexivity.
  - replace (folds <? 0)%Z with false by (symmetry; apply Z.ltb_ge; lia).
    replace (folds + 1 <? 0)%Z with false by (symmetry; apply Z.ltb_ge; lia).
    replace (S (Z.to_nat folds)) with (Z.to_nat folds + 1)%nat by lia.
    rewrite repeat_app. do 2 eexists. split; reflexivity.
Qed.

(** One more fold keeps the previous curve as its head: the first
    [length] points of [curve (folds + 1)] are the points of [curve folds]
    shifted by one translation vector. *)
Theorem curve_prefix (folds : Z) (angle : R) (alternate : bool) :
  (0 <= folds)%Z ->
  exists c c' t, curve folds angle alternate = Some c /\
    curve (folds + 1) angle alternate = Some c' /\
    firstn (length (points c)) (points c') = map (addp t) (points c).
Proof.
  intros Hf. destruct (direction_succ folds alternate Hf) as [ds [d [H1 H2]]].
  unfold curve. rewrite H1, H2.
  rewrite init_coord_rows, !rows_curve_loop.
  set (Q := pts_loop angle ds [(0, 1); (0, 0)]).
  assert (HQ : pts_loop angle (ds ++ [d]) [(0, 1); (0, 0)] =
               step_pts (rotation_matrix (d * angle)) Q)
    by (unfold Q, pts_loop; rewrite fold_left_app; reflexivity).
  rewrite HQ. exists (rows Q), (rows (step_pts (rotation_matrix (d * angle)) Q)).
  eexists. split; [reflexivity |]. split; [reflexivity |].
  rewrite !points_rows. unfold step_pts.
  rewrite firstn_app, length_map, Nat.sub_diag, firstn_O, app_nil_r.
  apply firstn_all2. rewrite length_map. lia.
Qed.

Lemma curve_prefix_witness :
  (0 <= 2)%Z /\
  exists c c' t, curve 2 (PI / 2) false = Some c /\
    curve (2 + 1) (PI / 2) false = Some c' /\
    firstn (length (points c)) (points c') = map (addp t) (points c).
Proof. split; [lia | apply (curve_prefix 2 (PI / 2) false); lia]. Defined.




(** ** Integer coordinates at a right angle *)

Lemma is_int_IZR (z : Z) : is_int (IZR z).
Proof. exists z. reflexivity. Qed.

Lemma is_int_add (x y : R) : is_int x -> is_int y -> is_int (x + y).
Proof. intros [a ->] [b ->]. exists (a + b)%Z. rewrite plus_IZR. reflexivity. Qed.

Lemma is_int_mul (x y : R) : is_int x -> is_int y -> is_int (x * y).
Proof. intros [a ->] [b ->]. exists (a * b)%Z. rewrite mult_IZR. reflexivity. Qed.

Lemma mat_vec_int (m : mat2) (p : R * R) :
  is_int (m00 m) -> is_int (m01 m) -> is_int (m10 m) -> is_int (m11 m) ->
  is_int (fst p) -> is_int (snd p) ->
  is_int (fst (mat_vec m p)) /\ is_int (snd (mat_vec m p)).
Proof.
  intros H00 H01 H10 H11 Hx Hy. unfold mat_vec. cbn [fst snd].
  split; apply is_int_add; apply is_int_mul; assumption.
Qed.

Lemma step_pts_int (m : mat2) (P : list (R * R)) :
  is_int (m00 m) -> is_int (m01 m) -> is_int (m10 m) -> is_int (m11 m) ->
  Forall (fun p => is_int (fst p) /\ is_int (snd p)) P ->
  Forall (fun p => is_int (fst p) /\ is_int (snd p)) (step_pts m P).
Proof.
  intros H00 H01 H10 H11 HP.
  assert (Hh : is_int (fst (hd (0, 0) P)) /\ is_int (snd (hd (0, 0) P))).
  { destruct HP as [| p l Hp _]; [split; apply (is_int_IZR 0) | exact Hp]. }
  destruct (mat_vec_int m _ H00 H01 H10 H11 (proj1 Hh) (proj2 Hh)) as [Hox Hoy].
  assert (Ht : forall q, is_int (fst q) /\ is_int (snd q) ->
    is_int (fst (addp (fst (mat_vec m (hd (0, 0) P)) * -1,
                      snd (mat_vec m (hd (0, 0) P)) * -1) q)) /\
    is_int (snd (addp (fst (mat_vec m (hd (0, 0) P)) * -1,
                      snd (mat_vec m (hd (0, 0) P)) * -1) q))).
  { intros q [Hqx Hqy]. unfold addp. cbn [fst snd].
    split; apply is_int_add; try assumption; apply is_int_mul;
      try assumption; apply (is_int_IZR (-1)). }
  unfold step_pts. apply Forall_app. split.
  - apply Forall_map. rewrite Forall_forall in HP |- *. intros q Hq. apply Ht, HP, Hq.
  - apply Forall_map. pose proof (Forall_tl _ _ (Forall_rev HP)) as HT.
    rewrite Forall_forall in HT |- *. intros q Hq. apply Ht.
    destruct (HT q Hq) as [Hqx Hqy]. apply mat_vec_int; assumption.
Qed.

(** At the angle [PI/2], every coordinate of the array [curve] returns is
    an integer, in both alternation modes: the curve lies on the lattice. *)
Theorem curve_right_angle_integer (folds : Z) (alternate : bool) :
  match curve folds (PI / 2) alternate with
  | Some c => Forall is_int (fst c) /\ Forall is_int (snd c)
  | None => True
  end.
Proof.
  unfold curve. destruct (direction folds alternate) as [ds |] eqn:Hd; [| exact I].
  apply direction_signs in Hd.
  rewrite init_coord_rows, rows_curve_loop. unfold rows. cbn [fst snd].
  assert (HL : Forall (fun p => is_int (fst p) /\ is_int (snd p))
                 (pts_loop (PI / 2) ds [(0, 1); (0, 0)])).
  { assert (H0 : Forall (fun p => is_int (fst p) /\ is_int (snd p)) [(0, 1); (0, 0)])
      by (repeat constructor; apply is_int_IZR).
    revert H0. generalize [(0, 1); (0, 0)] as P.
    induction ds as [| d ds IH]; intros P HP; [exact HP |].
    inversion Hd as [| ? ? Hd1 Hds]; subst.
    change (pts_loop (PI / 2) (d :: ds) P)
      with (pts_loop (PI / 2) ds (step_pts (rotation_matrix (d * (PI / 2))) P)).
    apply IH; [exact Hds |].
    destruct Hd1 as [-> | ->];
      rewrite ?rotation_matrix_pos_right, ?rotation_matrix_neg_right;
      apply step_pts_int; try exact HP; cbn [m00 m01 m10 m11]; apply is_int_IZR. }
  split; apply Forall_map; rewrite Forall_forall in HL |- *; intros p Hp; apply HL, Hp.
Qed.

(** ** Renderer *)

Lemma length_grad_loop (cm : string) (cols : list R) (f : nat) (prev : Z) (c : coord) :
  length (grad_loop cm f cols prev c) = length cols.
Proof.
  revert f prev. induction cols as [| col rest IH]; intros f prev; [reflexivity |].
  simpl. rewrite IH. reflexivity.
Qed.

Lemma grad_loop_nth (cm : string) (cols : list R) (f : nat) (prev : Z) (c : coord)
    (k : nat) (d : event) :
  (k < length cols)%nat ->
  nth k (grad_loop cm f cols prev c) d =
  let lo := match k with
            | O => prev
            | S _ => (2 ^ (Z.of_nat (f + k) - 1) - 2)%Z
            end in
  let hi := (2 ^ Z.of_nat (f + k) - 1)%Z in
  Plot (py_slice (fst c) lo hi) (py_slice (snd c) lo hi) (Cmap cm (nth k cols 0)).
Proof.
  revert f prev k. induction cols as [| col rest IH]; intros f prev k Hk;
    [simpl in Hk; lia |].
  destruct k as [| k].
  - rewrite Nat.add_0_r. reflexivity.
  - simpl nth at 1. rewrite IH by (simpl in Hk; lia). cbv zeta.
    replace (S f + k)%nat with (f + S k)%nat by lia.
    destruct k as [| k]; [| reflexivity].
    replace (Z.of_nat (f + 1) - 1)%Z with (Z.of_nat f) by lia.
    replace (2 ^ Z.of_nat f - 1 - 1)%Z with (2 ^ Z.of_nat f - 2)%Z by lia.
    reflexivity.
Qed.

Lemma py_slice_nonneg {A : Type} (l : list A) (a b : Z) :
  (0 <= a)%Z -> (0 <= b)%Z ->
  py_slice l a b =
  firstn (Z.to_nat (Z.min b (Z.of_nat (length l)) - Z.min a (Z.of_nat (length l))))
    (skipn (Z.to_nat (Z.min a (Z.of_nat (length l)))) l).
Proof.
  intros Ha Hb. unfold py_slice, py_index_norm.
  replace (a <? 0)%Z with false by (symmetry; apply Z.ltb_ge; lia).
  replace (b <? 0)%Z with false by (symmetry; apply Z.ltb_ge; lia).
  reflexivity.
Qed.

Lemma grad_slice_segment {A : Type} (l : list A) (folds : Z) (k : nat) :
  (0 <= folds)%Z -> Z.of_nat (length l) = (2 ^ folds + 1)%Z ->
  (k <= Z.to_nat folds)%nat ->
  py_slice l (match k with
              | O => 0%Z
              | S _ => (2 ^ (Z.of_nat (0 + k) - 1) - 2)%Z
              end) (2 ^ Z.of_nat (0 + k) - 1)%Z = grad_segment k l.
Proof.
  intros Hf Hn Hk. simpl Nat.add.
  pose proof (Z.pow_pos_nonneg 2 folds ltac:(lia) Hf) as Hpos.
  destruct k as [| [| k']].
  - rewrite py_slice_nonneg by lia. simpl (2 ^ Z.of_nat 0 - 1)%Z.
    rewrite Z.min_l by lia. reflexivity.
  - unfold py_slice, py_index_norm. simpl (2 ^ (Z.of_nat 1 - 1) - 2)%Z.
    simpl (2 ^ Z.of_nat 1 - 1)%Z. cbn [Z.ltb Z.compare].
    rewrite Hn. rewrite Z.max_r by lia. rewrite Z.min_l by lia.
    replace (Z.to_nat (1 - (-1 + (2 ^ folds + 1)))) with 0%nat by lia.
    reflexivity.
  - set (k := S (S k')) in *.
    set (e := (Z.of_nat k - 1)%Z).
    assert (He : (1 <= e)%Z) by (unfold e, k; lia).
    assert (Hk2 : (2 ^ Z.of_nat k = 2 * 2 ^ e)%Z).
    { replace (Z.of_nat k) with (Z.succ e) by (unfold e; lia).
      apply Z.pow_succ_r. lia. }
    assert (He2 : (2 <= 2 ^ e)%Z).
    { replace 2%Z with (2 ^ 1)%Z at 1 by reflexivity.
      apply Z.pow_le_mono_r; lia. }
    assert (Hkf : (2 ^ Z.of_nat k <= 2 ^ folds)%Z) by (apply Z.pow_le_mono_r; lia).
    rewrite py_slice_nonneg by lia. rewrite Hn.
    rewrite (Z.min_l (2 ^ Z.of_nat k - 1)) by lia.
    rewrite (Z.min_l (2 ^ e - 2)) by lia.
    unfold grad_segment. replace (k <? 2)%nat with false by reflexivity.
    fold e. f_equal. f_equal. lia.
Qed.

Lemma linspace01_spec (folds : Z) :
  (0 <= folds)%Z ->
  exists cols, linspace01 (folds + 1) = Some cols /\
    length cols = S (Z.to_nat folds) /\
    (forall k, (k <= Z.to_nat folds)%nat -> nth k cols 0 = INR k / IZR folds).
Proof.
  intros Hf. unfold linspace01.
  replace (folds + 1 <? 0)%Z with false by (symmetry; apply Z.ltb_ge; lia).
  destruct (Z.eq_dec folds 0) as [-> | Hne].
  - exists [0]. split; [reflexivity |]. split; [reflexivity |].
    intros k Hk. simpl in Hk. assert (k = 0%nat) as -> by lia.
    simpl. unfold Rdiv. ring.
  - replace (folds + 1 =? 1)%Z with false by (symmetry; apply Z.eqb_neq; lia).
    eexists. split; [reflexivity |].
    replace (Z.to_nat (folds + 1)) with (S (Z.to_nat folds)) by lia.
    split; [rewrite length_map, length_seq; reflexivity |].
    intros k Hk. rewrite nth_map_R by lia.
    replace (folds + 1 - 1)%Z with folds by lia. reflexivity.
Qed.

Lemma curve_loop_rows_length (angle : R) (ds : list R) :
  length (fst (curve_loop angle ds init_coord)) = S (2 ^ length ds) /\
  length (snd (curve_loop angle ds init_coord)) = S (2 ^ length ds).
Proof.
  rewrite init_coord_rows, rows_curve_loop. unfold rows. cbn [fst snd].
  rewrite !length_map, (length_pts_loop angle ds _ 1) by reflexivity.
  rewrite Nat.mul_1_r. split; reflexivity.
Qed.

(** In gradient mode ([color_gradient] one of 'viridis', 'inferno', 'cool',
    'tab'), for [folds >= 0], [draw_curve] issues [folds + 1] plot calls
    followed by [set_facecolor] (and [savefig] when [save]).  Plot [k] uses
    the colormap at [k / folds] and draws the slice [grad_segment k] of
    both rows: nothing for [k = 0] and [k = 1], the points
    [2^(k-1) - 2 .. 2^k - 2] for [k >= 2].  So the last segment ends at the
    point [2^folds - 2]: the last two of the [2^folds + 1] points are never
    drawn, and for [folds <= 1] nothing is drawn. *)
Theorem draw_curve_gradient (folds : Z) (angle : R) (alternate : bool)
    (g cm bg : string) (save : bool) :
  (0 <= folds)%Z -> cmap_of g = Some cm ->
  exists c G, curve folds angle alternate = Some c /\
    draw_curve folds angle alternate (Some g) bg save =
      Some (G ++ FaceColor bg :: (if save then [SaveFig "dragon_curve.jpg" 800] else [])) /\
    length G = S (Z.to_nat folds) /\
    (forall k, (k <= Z.to_nat folds)%nat ->
       nth k G (FaceColor bg) =
       Plot (grad_segment k (fst c)) (grad_segment k (snd c)) (Cmap cm (INR k / IZR folds))).
Proof.
  intros Hf Hcm. destruct (direction_length folds alternate Hf) as [ds [Hd Hl]].
  destruct (linspace01_spec folds Hf) as [cols [Hlin [Hlc Hnth]]].
  set (c := curve_loop angle ds init_coord).
  assert (Hc : curve folds angle alternate = Some c) by (unfold curve; rewrite Hd; reflexivity).
  exists c, (grad_loop cm 0 cols 0 c).
  split; [exact Hc |].
  split; [unfold draw_curve; rewrite Hc, Hcm, Hlin; reflexivity |].
  split; [rewrite length_grad_loop; exact Hlc |].
  intros k Hk. rewrite grad_loop_nth by lia. cbv zeta.
  rewrite Hnth by exact Hk.
  destruct (curve_loop_rows_length angle ds) as [Hx Hy]. fold c in Hx, Hy.
  assert (Hn : forall l : row, length l = S (2 ^ length ds) ->
            Z.of_nat (length l) = (2 ^ folds + 1)%Z).
  { intros l ->. rewrite Hl, Nat2Z.inj_succ, Nat2Z.inj_pow, Z2Nat.id by exact Hf.
    lia. }
  rewrite !grad_slice_segment with (folds := folds); try assumption;
    [reflexivity | apply Hn; assumption | apply Hn; assumption].
Qed.

Lemma draw_curve_gradient_witness :
  ((0 <= 3)%Z /\ cmap_of "viridis" = Some "viridis"%string) /\
  exists c G, curve 3 (PI / 2) false = Some c /\
    draw_curve 3 (PI / 2) false (Some "viridis"%string) "black" true =
      Some (G ++ FaceColor "black" :: (if true then [SaveFig "dragon_curve.jpg" 800] else [])) /\
    length G = S (Z.to_nat 3) /\
    (forall k, (k <= Z.to_nat 3)%nat ->
       nth k G (FaceColor "black") =
       Plot (grad_segment k (fst c)) (grad_segment k (snd c))
         (Cmap "viridis" (INR k / IZR 3))).
Proof.
  split; [split; [lia | reflexivity] |].
  apply (draw_curve_gradient 3 (PI / 2) false "viridis" "viridis" "black" true);
    [lia | reflexivity].
Defined.
